(** * A shallow embedding of aiomongo's GridFS facade and bulk-write engine

    [aiomongo/gridfs.py] is translated function by function.  The GridFS
    writer and reader ([GridIn], [GridOut] from [aiomongo/grid_file.py]) and
    the bulk-write engine are not part of the sources at hand; their
    definitions below are modelled from the specification and marked so.

    Asynchronous methods are modelled as computations of a state and error
    monad [M] over the persisted collections.  Calling an [async def]
    function in Python only builds a coroutine object; its body runs when
    the coroutine is awaited.  A call that is awaited is a monadic bind; a
    call that is not awaited is a value of type [M A] that nobody runs. *)

From Stdlib Require Import String List ZArith Arith Bool Lia.
From Stdlib Require Import Sorting.Permutation Sorting.Sorted Classes.RelationClasses.
From Stdlib Require Strings.Byte.
Import ListNotations.
Local Open Scope nat_scope.

(* ------------------------------------------------------------------ *)
(** ** Values, documents and the persisted collections *)

(** BSON values used as [_id] and metadata values: integers, strings and
    client-generated ObjectIds (numbered by generation order). *)
Inductive val : Type :=
| VInt (z : Z)
| VStr (s : string)
| VOid (n : nat).

Definition val_eq_dec (a b : val) : {a = b} + {a <> b}.
Proof. decide equality; auto using Z.eq_dec, string_dec, Nat.eq_dec. Defined.

Definition val_eqb (a b : val) : bool := if val_eq_dec a b then true else false.

(** A document of [<bucket>.files]. *)
Record file_doc : Type := mkFile {
  f_id : val;
  f_filename : option string;
  f_length : nat;
  f_chunkSize : nat;
  f_uploadDate : nat;
  f_meta : list (string * val)
}.

(** A document of [<bucket>.chunks]. *)
Record chunk : Type := mkChunk {
  c_files_id : val;
  c_n : nat;
  c_data : list Byte.byte
}.

(** The persisted state of one bucket, plus the server clock that stamps
    [uploadDate] and the counter the client uses to generate ObjectIds. *)
Record world : Type := mkWorld {
  w_files : list file_doc;
  w_chunks : list chunk;
  w_clock : nat;
  w_next_oid : nat
}.

Inductive py_error : Type :=
| NoFile
| FileExists
| CorruptGridFile
| ConfigurationError
| ValueError
| NameError (name : string)
| AttributeError (name : string)
| TypeError (msg : string)
| StopIteration.

Inductive result (A : Type) : Type :=
| Ok (a : A)
| Err (e : py_error).
Arguments Ok {A} a.
Arguments Err {A} e.

(** The state and error monad of awaited computations. *)
Definition M (A : Type) : Type := world -> result A * world.

Definition ret {A} (a : A) : M A := fun w => (Ok a, w).
Definition raise {A} (e : py_error) : M A := fun w => (Err e, w).
Definition bind {A B} (m : M A) (k : A -> M B) : M B :=
  fun w => match m w with
           | (Ok a, w') => k a w'
           | (Err e, w') => (Err e, w')
           end.
Definition get_world : M world := fun w => (Ok w, w).
Definition put_world (w : world) : M unit := fun _ => (Ok tt, w).

Notation "x <- m ;; k" := (bind m (fun x => k))
  (at level 61, m at next level, right associativity).
Notation "m ;;; k" := (bind m (fun _ => k))
  (at level 61, right associativity).

(** A coroutine object that is created and dropped without being awaited:
    its body never runs, so nothing happens to the world. *)
Definition not_awaited {A} (c : M A) : M unit := ret tt.

(* ------------------------------------------------------------------ *)
(** ** Collection primitives (the external collection capability) *)

Definition find_file (fid : val) (fs : list file_doc) : option file_doc :=
  find (fun d => val_eqb (f_id d) fid) fs.

Definition find_chunk (fid : val) (n : nat) (cs : list chunk) : option chunk :=
  find (fun c => val_eqb (c_files_id c) fid && Nat.eqb (c_n c) n) cs.

(** [files.insert_one]: the unique index on [_id] turns a duplicate into
    [FileExists] (GridIn converts the duplicate-key error). *)
Definition files_insert_one (d : file_doc) : M unit :=
  w <- get_world ;;
  match find_file (f_id d) (w_files w) with
  | Some _ => raise FileExists
  | None => put_world (mkWorld (w_files w ++ [d]) (w_chunks w) (w_clock w) (w_next_oid w))
  end.

(** [chunks.insert_one], under the unique index [{files_id: 1, n: 1}]. *)
Definition chunks_insert_one (c : chunk) : M unit :=
  w <- get_world ;;
  match find_chunk (c_files_id c) (c_n c) (w_chunks w) with
  | Some _ => raise FileExists
  | None => put_world (mkWorld (w_files w) (w_chunks w ++ [c]) (w_clock w) (w_next_oid w))
  end.

(** [files.delete_one({'_id': fid})]: removes the first match. *)
Fixpoint remove_first_file (fid : val) (fs : list file_doc) : list file_doc :=
  match fs with
  | [] => []
  | d :: fs' => if val_eqb (f_id d) fid then fs' else d :: remove_first_file fid fs'
  end.

Definition files_delete_one (fid : val) : M unit :=
  w <- get_world ;;
  put_world (mkWorld (remove_first_file fid (w_files w)) (w_chunks w) (w_clock w) (w_next_oid w)).

(** [chunks.delete_many({'files_id': fid})]. *)
Definition chunks_delete_many (fid : val) : M unit :=
  w <- get_world ;;
  put_world (mkWorld (w_files w)
                     (filter (fun c => negb (val_eqb (c_files_id c) fid)) (w_chunks w))
                     (w_clock w) (w_next_oid w)).

(** A fresh client-side ObjectId. *)
Definition new_object_id : M val :=
  w <- get_world ;;
  put_world (mkWorld (w_files w) (w_chunks w) (w_clock w) (S (w_next_oid w))) ;;;
  ret (VOid (w_next_oid w)).

(** The server's current time, strictly increasing between calls. *)
Definition now : M nat :=
  w <- get_world ;;
  put_world (mkWorld (w_files w) (w_chunks w) (S (w_clock w)) (w_next_oid w)) ;;;
  ret (w_clock w).

(* ------------------------------------------------------------------ *)
(** ** GridIn, the writer *)

(** Keyword arguments of [GridIn(...)] / [put(data, **kwargs)]. *)
Record grid_options : Type := mkOptions {
  opt_id : option val;
  opt_filename : option string;
  opt_chunkSize : option nat;
  opt_meta : list (string * val)
}.

Definition DEFAULT_CHUNK_SIZE : nat := 255 * 1024.

Record gridin : Type := mkGridIn {
  gi_id : val;
  gi_filename : option string;
  gi_chunkSize : nat;
  gi_meta : list (string * val);
  gi_buffer : list Byte.byte;
  gi_position : nat;
  gi_chunk_number : nat;
  gi_closed : bool
}.

(** Modelled from the spec: [GridIn.__init__] (aiomongo/grid_file.py is not
    in the sources).  A new file is created in memory only; the [_id] is the
    caller's or a fresh ObjectId, the chunk size defaults to 255 KiB. *)
Definition gridin_new (o : grid_options) : M gridin :=
  fid <- match opt_id o with Some i => ret i | None => new_object_id end ;;
  ret (mkGridIn fid (opt_filename o)
                (match opt_chunkSize o with Some c => c | None => DEFAULT_CHUNK_SIZE end)
                (opt_meta o) [] 0 0 false).

(** Modelled from the spec: persisting one chunk document of a GridIn. *)
Definition gridin_flush_data (g : gridin) (data : list Byte.byte) : M gridin :=
  chunks_insert_one (mkChunk (gi_id g) (gi_chunk_number g) data) ;;;
  ret (mkGridIn (gi_id g) (gi_filename g) (gi_chunkSize g) (gi_meta g)
                (gi_buffer g) (gi_position g + length data)
                (S (gi_chunk_number g)) (gi_closed g)).

Definition with_buffer (g : gridin) (b : list Byte.byte) : gridin :=
  mkGridIn (gi_id g) (gi_filename g) (gi_chunkSize g) (gi_meta g)
           b (gi_position g) (gi_chunk_number g) (gi_closed g).

(** Emit a full chunk while the buffer holds at least [chunkSize] bytes;
    [fuel] bounds the number of chunks. *)
Fixpoint gridin_emit_full (fuel : nat) (g : gridin) : M gridin :=
  match fuel with
  | O => ret g
  | S fuel' =>
      let cs := gi_chunkSize g in
      if (0 <? cs) && (cs <=? length (gi_buffer g)) then
        g' <- gridin_flush_data g (firstn cs (gi_buffer g)) ;;
        gridin_emit_full fuel' (with_buffer g' (skipn cs (gi_buffer g)))
      else ret g
  end.

(** Modelled from the spec: [async def GridIn.write(data)] for bytes:
    invalid after close; appends to the buffer and emits every full chunk. *)
Definition gridin_write (g : gridin) (data : list Byte.byte) : M gridin :=
  if gi_closed g then raise ValueError
  else
    let g1 := with_buffer g (gi_buffer g ++ data) in
    gridin_emit_full (length (gi_buffer g1)) g1.

(** Modelled from the spec: [async def GridIn.close()]: flushes the
    remaining partial buffer as a last chunk (no chunk for an empty one),
    stamps [uploadDate] and persists the metadata document, failing with
    [FileExists] if the [_id] is taken.  Closing twice does nothing. *)
Definition gridin_close (g : gridin) : M gridin :=
  if gi_closed g then ret g
  else
    g1 <- (match gi_buffer g with
           | [] => ret g
           | b => gridin_flush_data (with_buffer g []) b
           end) ;;
    t <- now ;;
    files_insert_one (mkFile (gi_id g1) (gi_filename g1) (gi_position g1)
                             (gi_chunkSize g1) t (gi_meta g1)) ;;;
    ret (mkGridIn (gi_id g1) (gi_filename g1) (gi_chunkSize g1) (gi_meta g1)
                  [] (gi_position g1) (gi_chunk_number g1) true).

(* ------------------------------------------------------------------ *)
(** ** GridOut, the reader *)

Record gridout : Type := mkGridOut {
  go_file_id : val;
  go_file : option file_doc
}.

(** Modelled from the spec: [async def GridOut._ensure_file()]: looks the
    metadata document up by [_id] once, failing with [NoFile]. *)
Definition gridout_ensure_file (g : gridout) : M gridout :=
  match go_file g with
  | Some _ => ret g
  | None =>
      w <- get_world ;;
      match find_file (go_file_id g) (w_files w) with
      | None => raise NoFile
      | Some d => ret (mkGridOut (go_file_id g) (Some d))
      end
  end.

Definition num_chunks (len cs : nat) : nat :=
  if cs =? 0 then 0 else (len + cs - 1) / cs.

(** Modelled from the spec: fetching chunk [n] of a file and checking its
    size against the recorded length. *)
Definition read_chunk (cs : list chunk) (d : file_doc) (n : nat) : result (list Byte.byte) :=
  let nc := num_chunks (f_length d) (f_chunkSize d) in
  match find_chunk (f_id d) n cs with
  | None => Err CorruptGridFile
  | Some c =>
      let expected := if S n =? nc then f_length d - n * f_chunkSize d
                      else f_chunkSize d in
      if length (c_data c) =? expected then Ok (c_data c) else Err CorruptGridFile
  end.

Fixpoint read_chunks (cs : list chunk) (d : file_doc) (ns : list nat) : result (list Byte.byte) :=
  match ns with
  | [] => Ok []
  | n :: ns' =>
      match read_chunk cs d n with
      | Err e => Err e
      | Ok b => match read_chunks cs d ns' with
                | Err e => Err e
                | Ok rest => Ok (b ++ rest)
                end
      end
  end.

(** Modelled from the spec: [async def GridOut.read()] of the whole file:
    the chunks in ascending [n], each one checked. *)
Definition gridout_read (g : gridout) : M (list Byte.byte) :=
  g' <- gridout_ensure_file g ;;
  match go_file g' with
  | None => raise NoFile
  | Some d =>
      w <- get_world ;;
      match read_chunks (w_chunks w) d
                        (seq 0 (num_chunks (f_length d) (f_chunkSize d))) with
      | Ok b => ret b
      | Err e => raise e
      end
  end.

Definition chunks_of (fid : val) (w : world) : list chunk :=
  filter (fun c => val_eqb (c_files_id c) fid) (w_chunks w).

(* ------------------------------------------------------------------ *)
(** ** Queries on [<bucket>.files] *)

(** A query document of equality conditions, like a Python dict. *)
Definition query := list (string * val).

(** [query[k] = v]: replaces the key's value or appends the key. *)
Fixpoint dict_set (q : query) (k : string) (v : val) : query :=
  match q with
  | [] => [(k, v)]
  | (k', v') :: q' => if String.eqb k k' then (k, v) :: q' else (k', v') :: dict_set q' k v
  end.

Fixpoint assoc (k : string) (l : list (string * val)) : option val :=
  match l with
  | [] => None
  | (k', v) :: l' => if String.eqb k k' then Some v else assoc k l'
  end.

Definition doc_field (d : file_doc) (k : string) : option val :=
  if String.eqb k "_id" then Some (f_id d)
  else if String.eqb k "filename" then option_map VStr (f_filename d)
  else if String.eqb k "length" then Some (VInt (Z.of_nat (f_length d)))
  else if String.eqb k "chunkSize" then Some (VInt (Z.of_nat (f_chunkSize d)))
  else if String.eqb k "uploadDate" then Some (VInt (Z.of_nat (f_uploadDate d)))
  else assoc k (f_meta d).

Definition matches (q : query) (d : file_doc) : bool :=
  forallb (fun kv => match doc_field d (fst kv) with
                     | Some v => val_eqb v (snd kv)
                     | None => false
                     end) q.

(** [ASCENDING] / [DESCENDING] of pymongo. *)
Inductive direction := ASCENDING | DESCENDING.

(** An aiomongo cursor on [<bucket>.files].  [find] only records the
    filter; [limit], [skip] and [sort] record their argument and return the
    cursor itself.  Nothing is fetched until the cursor is iterated. *)
Record cursor := mkCursor {
  cur_filter : query;
  cur_limit : Z;
  cur_skip : Z;
  cur_sort : option (string * direction)
}.

(** [files.find(q)]. *)
Definition files_find (q : query) : cursor := mkCursor q 0 0 None.

(** [cursor.limit(n)], [cursor.skip(n)], [cursor.sort(key, dir)]. *)
Definition cursor_limit (c : cursor) (n : Z) : cursor :=
  mkCursor (cur_filter c) n (cur_skip c) (cur_sort c).

Definition cursor_skip (c : cursor) (n : Z) : cursor :=
  mkCursor (cur_filter c) (cur_limit c) n (cur_sort c).

Definition cursor_sort (c : cursor) (key : string) (dir : direction) : cursor :=
  mkCursor (cur_filter c) (cur_limit c) (cur_skip c) (Some (key, dir)).

(** The builtin [next(cursor)].  aiomongo's cursor is an asynchronous
    iterator only: it has [__anext__] and no [__next__], so [next] raises
    [TypeError] without fetching anything. *)
Definition py_next (c : cursor) : M file_doc :=
  raise (TypeError "'Cursor' object is not an iterator").

(** [try: body except StopIteration: handler]. *)
Definition catch_stop_iteration {A} (body handler : M A) : M A :=
  fun w => match body w with
           | (Err StopIteration, w') => handler w'
           | r => r
           end.

(* ------------------------------------------------------------------ *)
(** ** The GridFS facade (aiomongo/gridfs.py) *)

(** [database.write_concern]: [w] is a number or a tag such as
    ["majority"], or left unset. *)
Inductive w_value := WNum (n : Z) | WTag (s : string).

Record write_concern := mkWriteConcern { wc_w : option w_value }.

(** pymongo's [WriteConcern.acknowledged]: [w != 0]. *)
Definition acknowledged (wc : write_concern) : bool :=
  match wc_w wc with
  | Some (WNum n) => negb (Z.eqb n 0)
  | _ => true
  end.

Record database := mkDatabase {
  db_name : string;
  db_write_concern : write_concern
}.

(** A collection handle carries the write concern of its database. *)
Record collection_handle := mkCollection {
  coll_name : string;
  coll_write_concern : write_concern
}.

Record gridfs := mkGridFS {
  gfs_database : database;
  gfs_collection : collection_handle;
  gfs_files : collection_handle;
  gfs_chunks : collection_handle
}.

(** [database[name]] and [collection.sub]: in-memory handles; each access
    is recorded in the returned log. *)
Definition db_getitem (db : database) (name : string) : collection_handle :=
  mkCollection name (db_write_concern db).

Definition coll_sub (c : collection_handle) (name : string) : collection_handle :=
  mkCollection (coll_name c ++ "." ++ name) (coll_write_concern c).

(** [GridFS.__init__(database, collection='fs')], with the list of the
    collection handles it accesses. *)
Definition GridFS_init (db : database) (collection : string)
  : result gridfs * list string :=
  if negb (acknowledged (db_write_concern db)) then (Err ConfigurationError, [])
  else
    let c := db_getitem db collection in
    let files := coll_sub c "files" in
    let chunks := coll_sub c "chunks" in
    (Ok (mkGridFS db c files chunks), [coll_name c; coll_name files; coll_name chunks]).

(** [GridFS.put(data, **kwargs)].  [grid_file.write(data)] is called
    without [await]: the coroutine it returns is dropped unrun. *)
Definition put (data : list Byte.byte) (kwargs : grid_options) : M val :=
  grid_file <- gridin_new kwargs ;;
  not_awaited (gridin_write grid_file data) ;;;
  grid_file' <- gridin_close grid_file ;;
  ret (gi_id grid_file').

(** [GridFS.get(file_id)]. *)
Definition get (file_id : val) : M gridout :=
  let gout := mkGridOut file_id None in
  gout' <- gridout_ensure_file gout ;;
  ret gout'.

(** [query = kwargs; if filename is not None: query['filename'] = filename]. *)
Definition version_query (filename : option string) (kwargs : query) : query :=
  match filename with
  | Some fn => dict_set kwargs "filename" (VStr fn)
  | None => kwargs
  end.

(** [GridFS.get_version(filename=None, version=-1, **kwargs)].  The
    builder calls change the cursor in place, so their results are the
    cursor that [next] receives.  [NoFile] is not imported in gridfs.py:
    the [raise] of the [except] clause would fail with a [NameError]. *)
Definition get_version (filename : option string) (version : Z) (kwargs : query)
  : M gridout :=
  let query := version_query filename kwargs in
  let cursor := files_find query in
  let cursor :=
    if Z.ltb version 0 then
      let skip := (Z.abs version - 1)%Z in
      cursor_sort (cursor_skip (cursor_limit cursor (-1)) skip) "uploadDate" DESCENDING
    else cursor_sort (cursor_skip (cursor_limit cursor (-1)) version) "uploadDate" ASCENDING in
  catch_stop_iteration
    (grid_file <- py_next cursor ;;
     ret (mkGridOut (f_id grid_file) (Some grid_file)))
    (raise (NameError "NoFile")).

(** What awaiting [get_last_version] produces: a GridOut, or (as the code
    does) the coroutine of an inner call that is returned unawaited. *)
Inductive py_object :=
| PGridOut (g : gridout)
| PCoroutine (c : M gridout).

(** [GridFS.get_version] seen as returning a Python object. *)
Definition get_version_obj (filename : option string) (version : Z) (kwargs : query)
  : M py_object :=
  g <- get_version filename version kwargs ;; ret (PGridOut g).

(** [GridFS.get_last_version(filename=None, **kwargs)]: returns
    [self.get_version(...)] without awaiting it. *)
Definition get_last_version (filename : option string) (kwargs : query) : M py_object :=
  ret (PCoroutine (get_version filename (-1) kwargs)).

(** [GridFS.delete(file_id)]. *)
Definition delete (file_id : val) : M unit :=
  files_delete_one file_id ;;;
  chunks_delete_many file_id.

(** [files.distinct('filename')]: each value of the field once, in order
    of first occurrence; a document without a filename contributes [None]
    (the comment in [GridFS.list]: with an index, [distinct] reports such
    documents as [None]). *)
Definition option_string_eq_dec (a b : option string) : {a = b} + {a <> b}.
Proof. decide equality; apply string_dec. Defined.

Definition files_distinct_filename : M (list (option string)) :=
  w <- get_world ;;
  ret (nodup option_string_eq_dec (map f_filename (w_files w))).

(** [[name for name in names if name is not None]]. *)
Fixpoint names_not_none (names : list (option string)) : list string :=
  match names with
  | [] => []
  | Some name :: names' => name :: names_not_none names'
  | None :: names' => names_not_none names'
  end.

(** [GridFS.list()]. *)
Definition GridFS_list : M (list string) :=
  names <- files_distinct_filename ;;
  ret (names_not_none names).

(** The attributes defined by [class GridFS] in gridfs.py. *)
Definition GridFS_methods : list string :=
  ["__init__"; "put"; "get"; "get_version"; "get_last_version"; "delete"; "list"]%string.

(** [getattr(fs, name)] on a GridFS instance. *)
Definition gridfs_getattr (name : string) : result string :=
  if existsb (String.eqb name) GridFS_methods then Ok name else Err (AttributeError name).

(* ------------------------------------------------------------------ *)
(** ** The bulk-write engine *)

Module Bulk.

Inductive op_kind := InsertOne | UpdateOne | UpdateMany | ReplaceOne | DeleteOne | DeleteMany.

(** The command a batch is sent as: one operation type per message. *)
Inductive batch_type := BInsert | BUpdate | BDelete.

Definition batch_type_eqb (a b : batch_type) : bool :=
  match a, b with
  | BInsert, BInsert | BUpdate, BUpdate | BDelete, BDelete => true
  | _, _ => false
  end.

Definition type_of (k : op_kind) : batch_type :=
  match k with
  | InsertOne => BInsert
  | UpdateOne | UpdateMany | ReplaceOne => BUpdate
  | DeleteOne | DeleteMany => BDelete
  end.

(** A write operation: its kind, its payload and its estimated encoded size. *)
Record write_op := mkOp {
  kind : op_kind;
  op_doc : val;
  op_size : nat
}.

Definition op_type (o : write_op) : batch_type := type_of (kind o).

Definition batch_type_of (b : list write_op) : batch_type :=
  match b with
  | o :: _ => op_type o
  | [] => BInsert
  end.

Definition batch_bytes (b : list write_op) : nat := fold_right (fun o n => op_size o + n) 0 b.

(** Modelled from the spec (4.1, the batch splitter): the next operation
    joins the current batch unless that would exceed the count or the size
    ceiling or change the operation type; an operation always fits an empty
    batch, so an oversized one forms a batch of its own. *)
Definition fits (max_count max_size : nat) (cur : list write_op) (o : write_op) : bool :=
  match cur with
  | [] => true
  | c :: _ => batch_type_eqb (op_type c) (op_type o)
              && (S (length cur) <=? max_count)
              && (batch_bytes cur + op_size o <=? max_size)
  end.

Fixpoint split_go (max_count max_size : nat) (cur : list write_op) (ops : list write_op)
  : list (list write_op) :=
  match ops with
  | [] => match cur with [] => [] | _ => [cur] end
  | o :: ops' =>
      if fits max_count max_size cur o then split_go max_count max_size (cur ++ [o]) ops'
      else cur :: split_go max_count max_size [o] ops'
  end.

Definition split_batches (max_count max_size : nat) (ops : list write_op) : list (list write_op) :=
  split_go max_count max_size [] ops.

(** Outcome of one operation on the server. *)
Inductive outcome :=
| OpOk (n : nat) (n_modified : option nat) (upserted_id : option val)
| OpErr (code : Z).

(** The raw reply to one batch command; indices are within the batch. *)
Record reply := mkReply {
  rp_n : nat;
  rp_nModified : option nat;
  rp_upserted : list (nat * val);
  rp_writeErrors : list (nat * Z)
}.

Definition opt_add (a b : option nat) : option nat :=
  match a, b with
  | Some x, Some y => Some (x + y)
  | _, _ => None
  end.

Definition empty_reply : reply := mkReply 0 (Some 0) [] [].

Definition add_ok (k n : nat) (nm : option nat) (up : option val) (rp : reply) : reply :=
  mkReply (n + rp_n rp) (opt_add nm (rp_nModified rp))
          (match up with Some i => (k, i) :: rp_upserted rp | None => rp_upserted rp end)
          (rp_writeErrors rp).

Definition add_error (k : nat) (code : Z) (rp : reply) : reply :=
  mkReply (rp_n rp) (rp_nModified rp) (rp_upserted rp) ((k, code) :: rp_writeErrors rp).

Record write_error := mkWriteError {
  we_index : nat;
  we_code : Z;
  we_op : option write_op
}.

Record bulk_result := mkBulkResult {
  nInserted : nat;
  nMatched : nat;
  nModified : option nat;
  nUpserted : nat;
  nRemoved : nat;
  upserted : list (nat * val);
  writeErrors : list write_error
}.

Definition empty_result : bulk_result := mkBulkResult 0 0 (Some 0) 0 0 [] [].

(** Modelled from the spec (4.3, the result aggregator): counters are
    summed by the batch's type, and the within-batch indices of
    [upserted] and [writeErrors] are shifted by [offset], the number of
    operations of all preceding batches. *)
Definition merge_reply (res : bulk_result) (offset : nat) (b : list write_op) (rp : reply)
  : bulk_result :=
  let t := batch_type_of b in
  let nup := length (rp_upserted rp) in
  mkBulkResult
    (nInserted res + match t with BInsert => rp_n rp | _ => 0 end)
    (nMatched res + match t with BUpdate => rp_n rp - nup | _ => 0 end)
    (opt_add (nModified res) (match t with BUpdate => rp_nModified rp | _ => Some 0 end))
    (nUpserted res + match t with BUpdate => nup | _ => 0 end)
    (nRemoved res + match t with BDelete => rp_n rp | _ => 0 end)
    (upserted res ++ map (fun p => (fst p + offset, snd p)) (rp_upserted rp))
    (writeErrors res ++ map (fun p => mkWriteError (fst p + offset) (snd p) (nth_error b (fst p)))
                            (rp_writeErrors rp)).

Inductive bulk_error := InvalidOperation | BulkWriteError (r : bulk_result).

(** A bulk executor is single use; the server advertises the limits. *)
Record bulk_executor := mkExecutor {
  be_executed : bool;
  be_max_count : nat;
  be_max_size : nat
}.

Record exec_outcome (S : Type) := mkOutcome {
  eo_result : bulk_result + bulk_error;
  eo_executor : bulk_executor;
  eo_state : S;
  eo_attempted : list (write_op * outcome)
}.
Arguments mkOutcome {S}.
Arguments eo_result {S}.
Arguments eo_executor {S}.
Arguments eo_state {S}.
Arguments eo_attempted {S}.

Section Executor.

(** The collaborator: the collection state and the server's application
    of one operation to it. *)
Variable coll_state : Type.
Variable apply_op : coll_state -> write_op -> outcome * coll_state.

(** Modelled from the spec (the collaborator's batch command): operations
    run in order; in ordered mode the server stops at the first error.
    Returns the reply, the new state and each attempted operation with
    its outcome. *)
Fixpoint server_batch (ordered : bool) (k : nat) (b : list write_op) (s : coll_state)
  : reply * coll_state * list (write_op * outcome) :=
  match b with
  | [] => (empty_reply, s, [])
  | o :: b' =>
      let (out, s1) := apply_op s o in
      match out with
      | OpErr code =>
          if ordered then (add_error k code empty_reply, s1, [(o, out)])
          else let '(rp, s2, tr) := server_batch ordered (S k) b' s1 in
               (add_error k code rp, s2, (o, out) :: tr)
      | OpOk n nm up =>
          let '(rp, s2, tr) := server_batch ordered (S k) b' s1 in
          (add_ok k n nm up rp, s2, (o, out) :: tr)
      end
  end.

(** Modelled from the spec (4.2, the bulk executor): batches are sent in
    sequence; in ordered mode no batch follows one that reported an error.
    Returns the aggregate, the state, the dispatched batches with their
    replies, and the attempted operations. *)
Fixpoint run_batches (ordered : bool) (offset : nat) (bs : list (list write_op))
         (res : bulk_result) (s : coll_state)
  : bulk_result * coll_state * list (list write_op * reply) * list (write_op * outcome) :=
  match bs with
  | [] => (res, s, [], [])
  | b :: bs' =>
      let '(rp, s1, tr) := server_batch ordered 0 b s in
      let res1 := merge_reply res offset b rp in
      match ordered, rp_writeErrors rp with
      | true, _ :: _ => (res1, s1, [(b, rp)], tr)
      | _, _ =>
          let '(r, s2, d, att) := run_batches ordered (offset + length b) bs' res1 s1 in
          (r, s2, (b, rp) :: d, tr ++ att)
      end
  end.

(** Modelled from the spec (4.2): [execute(operations, ordered)]. *)
Definition execute (ex : bulk_executor) (ops : list write_op) (ordered : bool) (s : coll_state)
  : exec_outcome coll_state :=
  match ops with
  | [] => mkOutcome (inr InvalidOperation) ex s []
  | _ =>
      if be_executed ex then mkOutcome (inr InvalidOperation) ex s []
      else
        let ex' := mkExecutor true (be_max_count ex) (be_max_size ex) in
        let bs := split_batches (be_max_count ex) (be_max_size ex) ops in
        let '(r, s', _, att) := run_batches ordered 0 bs empty_result s in
        match writeErrors r with
        | [] => mkOutcome (inl r) ex' s' att
        | _ => mkOutcome (inr (BulkWriteError r)) ex' s' att
        end
  end.

End Executor.

End Bulk.

(* ------------------------------------------------------------------ *)
(** ** Auxiliary notions for the statements *)

(** Files and chunks other than those of [fid]. *)
Definition files_without (fid : val) (fs : list file_doc) : list file_doc :=
  filter (fun d => negb (val_eqb (f_id d) fid)) fs.

Definition chunks_without (fid : val) (cs : list chunk) : list chunk :=
  filter (fun c => negb (val_eqb (c_files_id c) fid)) cs.

(** [put(data, **o)] followed by [get(id)] and [read()]. *)
Definition put_then_read (data : list Byte.byte) (o : grid_options) : M (list Byte.byte) :=
  i <- put data o ;;
  g <- get i ;;
  gridout_read g.

(** An empty bucket, and the bucket after three uploads named ["test"]. *)
Definition empty_world : world := mkWorld [] [] 0 0.

Definition test_options : grid_options := mkOptions None (Some "test"%string) (Some 4) [].

Definition three_versions : world :=
  snd ((put [Byte.x66; Byte.x6f; Byte.x6f] test_options ;;;
        put [Byte.x62; Byte.x61; Byte.x72] test_options ;;;
        put [Byte.x62; Byte.x61; Byte.x7a] test_options) empty_world).

(** Successes of attempted operations of one type. *)
Definition count_ok (t : Bulk.batch_type) (att : list (Bulk.write_op * Bulk.outcome)) : nat :=
  fold_right (fun p n => match snd p with
                         | Bulk.OpOk k _ _ => if Bulk.batch_type_eqb (Bulk.op_type (fst p)) t
                                              then k + n else n
                         | Bulk.OpErr _ => n
                         end) 0 att.

(** Sum of the counts of the successful attempted operations. *)
Definition sum_ok (att : list (Bulk.write_op * Bulk.outcome)) : nat :=
  fold_right (fun p n => match snd p with
                         | Bulk.OpOk k _ _ => k + n
                         | Bulk.OpErr _ => n
                         end) 0 att.

(** Every operation of a batch has the batch's type. *)
Definition homogeneous (b : list Bulk.write_op) : Prop :=
  forall o, In o b -> Bulk.op_type o = Bulk.batch_type_of b.

(** An attempted operation that failed. *)
Definition is_error (p : Bulk.write_op * Bulk.outcome) : bool :=
  match snd p with Bulk.OpErr _ => true | Bulk.OpOk _ _ _ => false end.

(** Sum of the [nModified] counts of the successful attempted operations
    of one type; [None] once one of them reports none. *)
Definition modified_ok (t : Bulk.batch_type) (att : list (Bulk.write_op * Bulk.outcome))
  : option nat :=
  fold_right (fun p m => match snd p with
                         | Bulk.OpOk _ nm _ => if Bulk.batch_type_eqb (Bulk.op_type (fst p)) t
                                               then Bulk.opt_add nm m else m
                         | Bulk.OpErr _ => m
                         end) (Some 0) att.

(** The ids upserted by the successful attempted operations, in order. *)
Definition upserted_ok (att : list (Bulk.write_op * Bulk.outcome)) : list val :=
  fold_right (fun p l => match snd p with
                         | Bulk.OpOk _ _ (Some i) => i :: l
                         | _ => l
                         end) [] att.

(** The attempted operations of one type. *)
Definition of_type (t : Bulk.batch_type) (att : list (Bulk.write_op * Bulk.outcome))
  : list (Bulk.write_op * Bulk.outcome) :=
  filter (fun p => Bulk.batch_type_eqb (Bulk.op_type (fst p)) t) att.

(** Databases with an unacknowledged and an acknowledged write concern. *)
Definition unacknowledged_db : database :=
  mkDatabase "test" (mkWriteConcern (Some (WNum 0))).

Definition majority_db : database :=
  mkDatabase "test" (mkWriteConcern (Some (WTag "majority"))).

(** A server on which inserting the document [13] fails with a duplicate
    key error; the state counts the applied operations. *)
Definition dup13_apply (n : nat) (o : Bulk.write_op) : Bulk.outcome * nat :=
  match Bulk.op_doc o with
  | VInt 13 => (Bulk.OpErr 11000, n)
  | _ => (Bulk.OpOk 1 None None, S n)
  end.

Definition ins (z : Z) : Bulk.write_op := Bulk.mkOp Bulk.InsertOne (VInt z) 1.

Definition demo_ops : list Bulk.write_op :=
  [ins 1; ins 2; ins 13; ins 4; ins 5; Bulk.mkOp Bulk.DeleteOne (VInt 1) 1; ins 13].

Definition demo_executor : Bulk.bulk_executor := Bulk.mkExecutor false 2 10.

(** A server on which an update of the document [13] fails, an update of
    a document above 100 upserts it, and every other operation succeeds. *)
Definition upsert_apply (n : nat) (o : Bulk.write_op) : Bulk.outcome * nat :=
  match Bulk.op_type o, Bulk.op_doc o with
  | Bulk.BUpdate, VInt 13 => (Bulk.OpErr 11000, n)
  | Bulk.BUpdate, VInt z =>
      if Z.ltb 100 z then (Bulk.OpOk 1 (Some 0) (Some (VInt z)), S n)
      else (Bulk.OpOk 1 (Some 1) None, S n)
  | _, _ => (Bulk.OpOk 1 None None, S n)
  end.

Definition upd (z : Z) : Bulk.write_op := Bulk.mkOp Bulk.UpdateOne (VInt z) 1.

Definition mixed_ops : list Bulk.write_op :=
  [ins 1; upd 1; upd 200; upd 2; upd 13; upd 300; ins 5].

(* ------------------------------------------------------------------ *)
(** ** The test helper [oid_generated_on_client] (tests/utils.py) *)

(** [struct.unpack('>H', b)[0]]: a big-endian unsigned 16-bit integer;
    a buffer of any length other than 2 raises [struct.error] ([None]). *)
Definition unpack_be_u16 (b : list Byte.byte) : option Z :=
  match b with
  | [hi; lo] => Some (Z.of_nat (Byte.to_nat hi) * 256 + Z.of_nat (Byte.to_nat lo))%Z
  | _ => None
  end.

(** [oid_generated_on_client(oid)] for a process whose [os.getpid()] is
    [pid] and an ObjectId whose [binary] is given; [None] when
    [struct.unpack] raises.  [oid.binary[7:9]] is the slice [7, 9). *)
Definition oid_generated_on_client (pid : Z) (binary : list Byte.byte) : option bool :=
  match unpack_be_u16 (firstn 2 (skipn 7 binary)) with
  | Some pid_from_doc => Some (Z.eqb (Z.modulo pid 65535) pid_from_doc)
  | None => None
  end.

(* ================================================================== *)
(** * Properties *)

Lemma val_eqb_eq a b : val_eqb a b = true <-> a = b.
Proof. unfold val_eqb; destruct (val_eq_dec a b); split; congruence. Qed.

Lemma val_eqb_refl a : val_eqb a a = true.
Proof. apply val_eqb_eq; reflexivity. Qed.

Lemma val_eqb_sym a b : val_eqb a b = val_eqb b a.
Proof.
  destruct (val_eqb a b) eqn:E1, (val_eqb b a) eqn:E2; auto.
  - apply val_eqb_eq in E1; subst; rewrite val_eqb_refl in E2; discriminate.
  - apply val_eqb_eq in E2; subst; rewrite val_eqb_refl in E1; discriminate.
Qed.

(** ** Delete *)

Lemma remove_first_file_absent fid fs :
  ~ In fid (map f_id fs) -> remove_first_file fid fs = fs.
Proof.
  induction fs as [|d fs IH]; simpl; intros H; auto.
  destruct (val_eqb (f_id d) fid) eqn:E.
  - apply val_eqb_eq in E. tauto.
  - rewrite IH; tauto.
Qed.

Lemma files_without_absent fid fs :
  ~ In fid (map f_id fs) -> files_without fid fs = fs.
Proof.
  induction fs as [|d fs IH]; simpl; intros H; auto.
  unfold files_without in *; simpl.
  destruct (val_eqb (f_id d) fid) eqn:E.
  - apply val_eqb_eq in E. tauto.
  - simpl. rewrite IH; tauto.
Qed.

Lemma remove_first_file_nodup fid fs :
  NoDup (map f_id fs) -> remove_first_file fid fs = files_without fid fs.
Proof.
  induction fs as [|d fs IH]; simpl; intros H; auto.
  inversion H as [|x l Hnin Hnd]; subst.
  unfold files_without; simpl.
  destruct (val_eqb (f_id d) fid) eqn:E; simpl.
  - apply val_eqb_eq in E; subst.
    symmetry; apply files_without_absent; auto.
  - f_equal. apply IH; auto.
Qed.

Lemma files_without_no_match fid fs : ~ In fid (map f_id (files_without fid fs)).
Proof.
  induction fs as [|d fs IH]; simpl; auto.
  unfold files_without in *; simpl.
  destruct (val_eqb (f_id d) fid) eqn:E; simpl; auto.
  intros [H|H]; [|tauto]. subst. rewrite val_eqb_refl in E. discriminate.
Qed.

Lemma find_file_none fid fs : ~ In fid (map f_id fs) -> find_file fid fs = None.
Proof.
  induction fs as [|d fs IH]; simpl; intros H; auto.
  unfold find_file in *; simpl.
  destruct (val_eqb (f_id d) fid) eqn:E.
  - apply val_eqb_eq in E. tauto.
  - apply IH; tauto.
Qed.

Lemma chunks_without_idem fid cs : chunks_without fid (chunks_without fid cs) = chunks_without fid cs.
Proof.
  induction cs as [|c cs IH]; simpl; auto.
  unfold chunks_without in *; simpl.
  destruct (val_eqb (c_files_id c) fid) eqn:E; simpl; auto.
  rewrite E; simpl. f_equal; auto.
Qed.

Lemma chunks_of_without fid cs clock oid fs :
  chunks_of fid (mkWorld fs (chunks_without fid cs) clock oid) = [].
Proof.
  unfold chunks_of, chunks_without; simpl.
  induction cs as [|c cs IH]; simpl; auto.
  destruct (val_eqb (c_files_id c) fid) eqn:E; simpl; auto.
  rewrite E; simpl; auto.
Qed.

(** C5: [delete(file_id)] removes the metadata document with that [_id] and
    every chunk whose [files_id] is [file_id], leaving the rest; it always
    succeeds, no file and no chunk of that id remains, and a second call
    succeeds and changes nothing. *)
Theorem delete_idempotent (file_id : val) (w : world) :
  NoDup (map f_id (w_files w)) ->
  let w' := mkWorld (files_without file_id (w_files w))
                    (chunks_without file_id (w_chunks w)) (w_clock w) (w_next_oid w) in
  delete file_id w = (Ok tt, w') /\
  find_file file_id (w_files w') = None /\
  chunks_of file_id w' = [] /\
  delete file_id w' = (Ok tt, w').
Proof.
  intros Hnd w'.
  assert (Hd : delete file_id w = (Ok tt, w')).
  { unfold delete, files_delete_one, chunks_delete_many, bind, get_world, put_world; simpl.
    rewrite remove_first_file_nodup by exact Hnd. reflexivity. }
  split; [exact Hd|].
  split; [apply find_file_none, files_without_no_match|].
  split; [apply chunks_of_without|].
  unfold delete, files_delete_one, chunks_delete_many, bind, get_world, put_world, w'; simpl.
  rewrite remove_first_file_absent by apply files_without_no_match.
  fold (chunks_without file_id (chunks_without file_id (w_chunks w))).
  rewrite chunks_without_idem. reflexivity.
Qed.

(** ** Get *)

(** C6: For an id with no metadata document, [get(file_id)] fails with
    [NoFile] at acquisition, leaving the world untouched: no GridOut is
    returned to the caller. *)
Theorem get_missing_fails_eagerly (file_id : val) (w : world) :
  find_file file_id (w_files w) = None ->
  get file_id w = (Err NoFile, w).
Proof.
  intros H.
  unfold get, gridout_ensure_file, bind, get_world, raise; simpl.
  rewrite H. reflexivity.
Qed.

(** ** Construction of the facade *)

(** C10: [GridFS(database, collection)] fails with [ConfigurationError],
    accessing no collection, when the database's write concern is not
    acknowledged; every facade it does build has an acknowledged write
    concern on its database and on the files and chunks collections that
    all its operations use. *)
Theorem GridFS_init_requires_acknowledged (db : database) (collection : string) :
  (acknowledged (db_write_concern db) = false ->
   GridFS_init db collection = (Err ConfigurationError, [])) /\
  (forall g log, GridFS_init db collection = (Ok g, log) ->
   acknowledged (db_write_concern (gfs_database g)) = true /\
   acknowledged (coll_write_concern (gfs_collection g)) = true /\
   acknowledged (coll_write_concern (gfs_files g)) = true /\
   acknowledged (coll_write_concern (gfs_chunks g)) = true).
Proof.
  unfold GridFS_init; split.
  - intros H; rewrite H; reflexivity.
  - intros g log.
    destruct (acknowledged (db_write_concern db)) eqn:E; simpl; [|discriminate].
    intros Heq; inversion Heq; subst; simpl; auto.
Qed.

(** ** exists *)

(** C3: [class GridFS] of gridfs.py defines no [exists]: looking it up on a
    facade fails with [AttributeError]. *)
Theorem GridFS_exists_missing :
  gridfs_getattr "exists" = Err (AttributeError "exists").
Proof. reflexivity. Qed.

(** ** get_last_version *)

(** C4: [get_last_version(filename, **kwargs)] never fails and never touches
    the world: it returns the unawaited coroutine of
    [get_version(filename, -1, **kwargs)] instead of a GridOut. *)
Theorem get_last_version_returns_coroutine (filename : option string) (kwargs : query) (w : world) :
  get_last_version filename kwargs w = (Ok (PCoroutine (get_version filename (-1) kwargs)), w).
Proof. reflexivity. Qed.

(** C4: with three versions of ["test"], awaiting [get_last_version("test")]
    yields a coroutine object, while [get_version("test", -1)] fails. *)
Lemma get_last_version_not_get_version :
  fst (get_last_version (Some "test"%string) [] three_versions)
  <> fst (get_version_obj (Some "test"%string) (-1) [] three_versions).
Proof. vm_compute. discriminate. Qed.

(** C3: the spec's [exists] cannot be called on the facade. *)
Lemma GridFS_exists_counterexample : gridfs_getattr "exists" <> Ok "exists"%string.
Proof. vm_compute. discriminate. Qed.

(** ** Put *)

Lemma find_file_app fid l1 l2 :
  find_file fid (l1 ++ l2) =
  match find_file fid l1 with Some d => Some d | None => find_file fid l2 end.
Proof.
  unfold find_file; induction l1 as [|d l1 IH]; simpl; auto.
  destruct (val_eqb (f_id d) fid); auto.
Qed.

Lemma num_chunks_zero cs : num_chunks 0 cs = 0.
Proof.
  unfold num_chunks. destruct (cs =? 0) eqn:E; auto.
  apply Nat.eqb_neq in E. apply Nat.div_small. lia.
Qed.

(** C1: [put(data, **o)] drops the coroutine of [grid_file.write(data)]
    unrun: with a generated [_id], the stored file is empty whatever
    [data] is, so reading it back yields no bytes.  With a caller-supplied
    [_id] that is already stored, [put] fails with [FileExists]. *)
Theorem put_discards_data (data : list Byte.byte) :
  (forall (o : grid_options) (w : world),
     opt_id o = None -> find_file (VOid (w_next_oid w)) (w_files w) = None ->
     fst (put_then_read data o w) = Ok []) /\
  (forall (o : grid_options) (w : world) (i : val) (d : file_doc),
     opt_id o = Some i -> find_file i (w_files w) = Some d ->
     fst (put data o w) = Err FileExists).
Proof.
  split.
  - intros o w Hid Hfresh.
    unfold put_then_read, put, gridin_new, not_awaited, gridin_close, get,
      gridout_ensure_file, gridout_read, files_insert_one, new_object_id, now,
      bind, ret, get_world, put_world; rewrite Hid; simpl.
    rewrite Hfresh; simpl.
    rewrite find_file_app, Hfresh; simpl.
    rewrite val_eqb_refl; simpl.
    rewrite num_chunks_zero. reflexivity.
  - intros o w i d Hid Hex.
    unfold put, gridin_new, not_awaited, gridin_close, files_insert_one, now,
      bind, ret, get_world, put_world, raise; rewrite Hid; simpl.
    rewrite Hex. reflexivity.
Qed.

(** C1: [put(b'AB', filename='test', chunkSize=4)] on an empty bucket,
    then [get] and [read], yields [b''], not [b'AB']. *)
Lemma put_roundtrip_counterexample :
  fst (put_then_read [Byte.x41; Byte.x42] test_options empty_world) <> Ok [Byte.x41; Byte.x42].
Proof. vm_compute. discriminate. Qed.

(** ** get_version *)

(** C2: [get_version(filename, version, **kwargs)] never returns a file
    and never fails with [NoFile]: for every filename, version, filter and
    bucket, [next(cursor)] on aiomongo's asynchronous cursor raises
    [TypeError], which the [except StopIteration] clause does not catch.
    The bucket is left unchanged. *)
Theorem get_version_always_type_error (filename : option string) (version : Z)
        (kwargs : query) (w : world) :
  get_version filename version kwargs w =
    (Err (TypeError "'Cursor' object is not an iterator"), w).
Proof.
  unfold get_version, catch_stop_iteration, bind, py_next, raise.
  destruct (Z.ltb version 0); reflexivity.
Qed.

(** ** The bulk-write engine *)

Import Bulk.

Lemma batch_type_eqb_eq a b : batch_type_eqb a b = true <-> a = b.
Proof. destruct a, b; simpl; split; congruence. Qed.

Lemma split_go_concat mc ms ops : forall cur,
  concat (split_go mc ms cur ops) = cur ++ ops.
Proof.
  induction ops as [|o ops IH]; intros cur; simpl.
  - destruct cur; simpl; auto using app_nil_r.
  - destruct (fits mc ms cur o); simpl; rewrite IH; [|simpl]; rewrite <- ?app_assoc; reflexivity.
Qed.

Lemma split_batches_concat mc ms ops : concat (split_batches mc ms ops) = ops.
Proof. unfold split_batches; apply split_go_concat. Qed.

Lemma split_go_homogeneous mc ms ops : forall cur,
  homogeneous cur -> Forall homogeneous (split_go mc ms cur ops).
Proof.
  induction ops as [|o ops IH]; intros cur Hc; simpl.
  - destruct cur; auto.
  - assert (Ho : homogeneous [o]) by (intros x [Hx|[]]; subst; reflexivity).
    destruct (fits mc ms cur o) eqn:Ef.
    + apply IH. destruct cur as [|c cur]; simpl; [exact Ho|].
      simpl in Ef. apply andb_prop in Ef as [Ef _]. apply andb_prop in Ef as [Ef _].
      apply batch_type_eqb_eq in Ef.
      intros x Hx. change (In x ((c :: cur) ++ [o])) in Hx.
      apply in_app_or in Hx as [Hx|[Hx|[]]].
      * apply Hc in Hx; exact Hx.
      * subst x; simpl; congruence.
    + constructor; auto.
Qed.

Lemma split_batches_homogeneous mc ms ops : Forall homogeneous (split_batches mc ms ops).
Proof. apply split_go_homogeneous. intros o []. Qed.

Section ServerBatch.

Variable coll_state : Type.
Variable apply_op : coll_state -> write_op -> outcome * coll_state.

(** What one batch command reports, relative to its first index [k]. *)
Lemma server_batch_spec ordered b : forall k s rp s' tr,
  server_batch coll_state apply_op ordered k b s = (rp, s', tr) ->
  (forall i code, In (i, code) (rp_writeErrors rp) ->
     exists o, k <= i /\ nth_error tr (i - k) = Some (o, OpErr code) /\
               nth_error b (i - k) = Some o) /\
  (forall i id, In (i, id) (rp_upserted rp) ->
     exists o n nm, k <= i /\ nth_error tr (i - k) = Some (o, OpOk n nm (Some id)) /\
                    nth_error b (i - k) = Some o) /\
  map fst tr = firstn (length tr) b /\
  ((ordered = false \/ rp_writeErrors rp = []) -> length tr = length b) /\
  (rp_writeErrors rp = [] -> forall p, In p tr -> is_error p = false) /\
  (ordered = true -> forall i p, nth_error tr i = Some p -> is_error p = true -> length tr = S i) /\
  rp_n rp = sum_ok tr.
Proof.
  induction b as [|o b IH]; intros k s rp s' tr H; simpl in H.
  - inversion H; subst; simpl.
    repeat split; intros; try contradiction; try reflexivity.
    destruct i; discriminate.
  - destruct (apply_op s o) as [out s1] eqn:Ha.
    destruct out as [n nm up|code].
    + destruct (server_batch coll_state apply_op ordered (S k) b s1) as [[rp1 s2] tr1] eqn:Hb.
      inversion H; subst; clear H.
      destruct (IH _ _ _ _ _ Hb) as (He & Hu & Hp & Hl & Hn & Ho & Hs).
      simpl. repeat split.
      * intros i code Hi. destruct (He i code Hi) as (o' & Hk & H1 & H2).
        exists o'. replace (i - k) with (S (i - S k)) by lia. repeat split; auto; lia.
      * intros i id Hi. destruct up as [u|]; simpl in Hi.
        -- destruct Hi as [Hi|Hi].
           ++ inversion Hi; subst. exists o, n, nm. rewrite Nat.sub_diag. auto.
           ++ destruct (Hu i id Hi) as (o' & n' & nm' & Hk & H1 & H2).
              exists o', n', nm'. replace (i - k) with (S (i - S k)) by lia. repeat split; auto; lia.
        -- destruct (Hu i id Hi) as (o' & n' & nm' & Hk & H1 & H2).
           exists o', n', nm'. replace (i - k) with (S (i - S k)) by lia. repeat split; auto; lia.
      * rewrite Hp; reflexivity.
      * intros Hc. simpl. rewrite Hl; auto.
      * intros Hc p [Hp'|Hp']; [subst; reflexivity|]. apply Hn; auto.
      * intros Hord [|i] p Hi Herr; simpl in Hi.
        -- inversion Hi; subst; discriminate.
        -- simpl. f_equal. eapply Ho; eauto.
      * simpl. rewrite Hs. reflexivity.
    + destruct ordered.
      * inversion H; subst; clear H. simpl. repeat split.
        -- intros i c [Hi|[]]. inversion Hi; subst. exists o. rewrite Nat.sub_diag. auto.
        -- intros i id [].
        -- intros [Hc|Hc]; discriminate.
        -- intros Hc; discriminate.
        -- intros _ [|i] p Hi _; [reflexivity|]. destruct i; discriminate.
      * destruct (server_batch coll_state apply_op false (S k) b s1) as [[rp1 s2] tr1] eqn:Hb.
        inversion H; subst; clear H.
        destruct (IH _ _ _ _ _ Hb) as (He & Hu & Hp & Hl & Hn & Ho & Hs).
        simpl. repeat split.
        -- intros i c [Hi|Hi].
           ++ inversion Hi; subst. exists o. rewrite Nat.sub_diag. auto.
           ++ destruct (He i c Hi) as (o' & Hk & H1 & H2).
              exists o'. replace (i - k) with (S (i - S k)) by lia. repeat split; auto; lia.
        -- intros i id Hi. destruct (Hu i id Hi) as (o' & n' & nm' & Hk & H1 & H2).
           exists o', n', nm'. replace (i - k) with (S (i - S k)) by lia. repeat split; auto; lia.
        -- rewrite Hp; reflexivity.
        -- intros _. simpl. rewrite Hl; auto.
        -- intros Hc; discriminate.
        -- intros Hc; discriminate.
        -- exact Hs.
Qed.

End ServerBatch.

Lemma nth_error_app_some {A} (l1 l2 : list A) k x :
  nth_error l1 k = Some x -> nth_error (l1 ++ l2) k = Some x.
Proof.
  revert k; induction l1 as [|a l1 IH]; intros [|k] H; simpl in *; try discriminate; auto.
Qed.

Lemma nth_error_app_skip {A} (l1 l2 : list A) k :
  length l1 <= k -> nth_error (l1 ++ l2) k = nth_error l2 (k - length l1).
Proof. apply nth_error_app2. Qed.

Section RunBatches.

Variable coll_state : Type.
Variable apply_op : coll_state -> write_op -> outcome * coll_state.

(** Splits the result of [run_batches] on a non-empty list of batches
    into the stop case and the continue case. *)
Ltac step_batch H Hs :=
  simpl in H;
  match type of H with
  | context [server_batch _ _ ?ord 0 ?b ?s] =>
      destruct (server_batch coll_state apply_op ord 0 b s) as [[?rp ?s1] ?tr] eqn:Hs
  end.

Lemma merge_errors res offset b rp tr s s1 ordered :
  server_batch coll_state apply_op ordered 0 b s = (rp, s1, tr) ->
  forall e, In e (writeErrors (merge_reply res offset b rp)) ->
  In e (writeErrors res) \/
  exists o, offset <= we_index e /\ nth_error tr (we_index e - offset) = Some (o, OpErr (we_code e)) /\
            nth_error b (we_index e - offset) = Some o /\ we_op e = Some o.
Proof.
  intros Hs e He. destruct (server_batch_spec _ _ _ _ _ _ _ _ _ Hs) as (Hr & _).
  simpl in He. apply in_app_or in He as [He|He]; [left; exact He|right].
  apply in_map_iff in He as [[k c] [Heq Hk]]. subst e. simpl.
  destruct (Hr k c Hk) as (o & _ & H1 & H2). rewrite Nat.sub_0_r in H1, H2.
  exists o. rewrite Nat.add_sub. repeat split; auto; lia.
Qed.

Lemma merge_upserted res offset b rp tr s s1 ordered :
  server_batch coll_state apply_op ordered 0 b s = (rp, s1, tr) ->
  forall i id, In (i, id) (upserted (merge_reply res offset b rp)) ->
  In (i, id) (upserted res) \/
  exists o n nm, offset <= i /\ nth_error tr (i - offset) = Some (o, OpOk n nm (Some id)) /\
                 nth_error b (i - offset) = Some o.
Proof.
  intros Hs i id Hi. destruct (server_batch_spec _ _ _ _ _ _ _ _ _ Hs) as (_ & Hu & _).
  simpl in Hi. apply in_app_or in Hi as [Hi|Hi]; [left; exact Hi|right].
  apply in_map_iff in Hi as [[k u] [Heq Hk]]. inversion Heq; subst. simpl.
  destruct (Hu k id Hk) as (o & n & nm & _ & H1 & H2). rewrite Nat.sub_0_r in H1, H2.
  exists o, n, nm. rewrite Nat.add_sub. repeat split; auto; lia.
Qed.

(** Every reported error and upsert of [run_batches] from [offset] on
    comes from [res] or from the attempted operation at the same position,
    counted from [offset], of the concatenated batches. *)
Lemma run_batches_indices ordered bs : forall offset res s r s' d att,
  run_batches coll_state apply_op ordered offset bs res s = (r, s', d, att) ->
  (forall e, In e (writeErrors r) -> In e (writeErrors res) \/
     exists o, offset <= we_index e /\
       nth_error att (we_index e - offset) = Some (o, OpErr (we_code e)) /\
       nth_error (concat bs) (we_index e - offset) = Some o /\ we_op e = Some o) /\
  (forall i id, In (i, id) (upserted r) -> In (i, id) (upserted res) \/
     exists o n nm, offset <= i /\
       nth_error att (i - offset) = Some (o, OpOk n nm (Some id)) /\
       nth_error (concat bs) (i - offset) = Some o).
Proof.
  induction bs as [|b bs IH]; intros offset res s r s' d att H.
  - simpl in H; inversion H; subst. split; intros; left; assumption.
  - step_batch H Hs.
    pose proof (merge_errors res offset b _ _ _ _ _ Hs) as Me.
    pose proof (merge_upserted res offset b _ _ _ _ _ Hs) as Mu.
    destruct (server_batch_spec _ _ _ _ _ _ _ _ _ Hs) as (_ & _ & _ & Hl & _).
    simpl.
    destruct ordered; destruct (rp_writeErrors rp) as [|x xs] eqn:Er;
      [| inversion H; subst; clear H | |].
    2:{ split.
        - intros e He. destruct (Me e He) as [He'|(o & H0 & H1 & H2 & H3)]; [left; auto|right].
          exists o. repeat split; auto. apply nth_error_app_some; auto.
        - intros i id Hi. destruct (Mu i id Hi) as [Hi'|(o & n & nm & H0 & H1 & H2)];
            [left; auto|right].
          exists o, n, nm. repeat split; auto. apply nth_error_app_some; auto. }
    all: destruct (run_batches coll_state apply_op _ (offset + length b) bs
                     (merge_reply res offset b rp) s1) as [[[r1 s2] d1] att1] eqn:Hr;
         inversion H; subst; clear H;
         assert (Hlen : length tr = length b) by (apply Hl; auto);
         destruct (IH _ _ _ _ _ _ _ Hr) as [IHe IHu]; split.
    all: first
      [ intros e He; destruct (IHe e He) as [He'|(o & H0 & H1 & H2 & H3)];
        [ destruct (Me e He') as [He''|(o & H0 & H1 & H2 & H3)]; [left; auto|right];
          exists o; repeat split; auto; apply nth_error_app_some; auto
        | right; exists o; split; [lia|];
          rewrite !nth_error_app_skip by lia; rewrite Hlen;
          replace (we_index e - offset - length b) with (we_index e - (offset + length b)) by lia;
          auto ]
      | intros i id Hi; destruct (IHu i id Hi) as [Hi'|(o & n & nm & H0 & H1 & H2)];
        [ destruct (Mu i id Hi') as [Hi''|(o & n & nm & H0 & H1 & H2)]; [left; auto|right];
          exists o, n, nm; repeat split; auto; apply nth_error_app_some; auto
        | right; exists o, n, nm; split; [lia|];
          rewrite !nth_error_app_skip by lia; rewrite Hlen;
          replace (i - offset - length b) with (i - (offset + length b)) by lia;
          auto ] ].
Qed.

End RunBatches.

Lemma count_ok_app t l1 l2 : count_ok t (l1 ++ l2) = count_ok t l1 + count_ok t l2.
Proof.
  induction l1 as [|p l1 IH]; simpl; auto.
  destruct (snd p); [destruct (batch_type_eqb _ _)|]; rewrite IH; lia.
Qed.

Lemma count_ok_uniform t t' tr :
  (forall p, In p tr -> op_type (fst p) = t') ->
  count_ok t tr = if batch_type_eqb t' t then sum_ok tr else 0.
Proof.
  induction tr as [|p tr IH]; intros H; simpl.
  - destruct (batch_type_eqb t' t); reflexivity.
  - rewrite IH by (intros q Hq; apply H; right; exact Hq).
    rewrite (H p (or_introl eq_refl)).
    destruct (snd p), (batch_type_eqb t' t); lia.
Qed.

Lemma in_prefix_batch {A B} (tr : list (A * B)) (b : list A) p :
  map fst tr = firstn (length tr) b -> In p tr -> In (fst p) b.
Proof.
  intros Hp Hin.
  rewrite <- (firstn_skipn (length tr) b). apply in_or_app; left.
  rewrite <- Hp. apply in_map; exact Hin.
Qed.

Lemma opt_add_assoc a b c : opt_add (opt_add a b) c = opt_add a (opt_add b c).
Proof. destruct a, b, c; simpl; auto; f_equal; lia. Qed.

Lemma opt_add_0_l m : opt_add (Some 0) m = m.
Proof. destruct m; reflexivity. Qed.

Lemma opt_add_0_r m : opt_add m (Some 0) = m.
Proof. destruct m; simpl; auto; f_equal; lia. Qed.

Lemma modified_ok_app t l1 l2 :
  modified_ok t (l1 ++ l2) = opt_add (modified_ok t l1) (modified_ok t l2).
Proof.
  unfold modified_ok; induction l1 as [|p l1 IH]; simpl.
  - destruct (fold_right _ (Some 0) l2); reflexivity.
  - rewrite IH. destruct (snd p); [destruct (batch_type_eqb _ _)|]; auto.
    rewrite opt_add_assoc; reflexivity.
Qed.

Lemma modified_ok_uniform t t' tr :
  (forall p, In p tr -> op_type (fst p) = t') ->
  modified_ok t tr = if batch_type_eqb t' t then modified_ok t' tr else Some 0.
Proof.
  induction tr as [|p tr IH]; intros H; simpl.
  - destruct (batch_type_eqb t' t); reflexivity.
  - rewrite IH by (intros q Hq; apply H; right; exact Hq).
    rewrite (H p (or_introl eq_refl)).
    assert (Ht' : batch_type_eqb t' t' = true) by (apply batch_type_eqb_eq; reflexivity).
    rewrite Ht'.
    destruct (snd p), (batch_type_eqb t' t); reflexivity.
Qed.

Lemma of_type_uniform t t' tr :
  (forall p, In p tr -> op_type (fst p) = t') ->
  of_type t tr = if batch_type_eqb t' t then tr else [].
Proof.
  unfold of_type; induction tr as [|p tr IH]; intros H; simpl.
  - destruct (batch_type_eqb t' t); reflexivity.
  - rewrite IH by (intros q Hq; apply H; right; exact Hq).
    rewrite (H p (or_introl eq_refl)).
    destruct (batch_type_eqb t' t); reflexivity.
Qed.

Lemma map_snd_shift {B} (l : list (nat * B)) off :
  map snd (map (fun p => (fst p + off, snd p)) l) = map snd l.
Proof. rewrite map_map; apply map_ext; reflexivity. Qed.

Lemma upserted_ok_app l1 l2 : upserted_ok (l1 ++ l2) = upserted_ok l1 ++ upserted_ok l2.
Proof.
  induction l1 as [|p l1 IH]; simpl; auto.
  destruct (snd p) as [n nm [i|]|c]; rewrite IH; reflexivity.
Qed.

Lemma upserted_ok_le_sum tr :
  (forall o n nm id, In (o, OpOk n nm (Some id)) tr -> 1 <= n) ->
  length (upserted_ok tr) <= sum_ok tr.
Proof.
  induction tr as [|[o out] tr IH]; intros H; simpl; auto.
  assert (IH' : length (upserted_ok tr) <= sum_ok tr)
    by (apply IH; intros o' n nm id Hin; eapply H; right; exact Hin).
  destruct out as [n nm [i|]|c]; simpl; try lia.
  specialize (H o n nm i (or_introl eq_refl)); lia.
Qed.

Section RunBatchesOrdered.

Variable coll_state : Type.
Variable apply_op : coll_state -> write_op -> outcome * coll_state.

Lemma merge_counts res offset b rp tr s s1 ordered :
  server_batch coll_state apply_op ordered 0 b s = (rp, s1, tr) -> homogeneous b ->
  nInserted (merge_reply res offset b rp) = nInserted res + count_ok BInsert tr /\
  nRemoved (merge_reply res offset b rp) = nRemoved res + count_ok BDelete tr.
Proof.
  intros Hs Hb. destruct (server_batch_spec _ _ _ _ _ _ _ _ _ Hs) as (_ & _ & Hp & _ & _ & _ & Hsum).
  assert (Hu : forall p, In p tr -> op_type (fst p) = batch_type_of b)
    by (intros p Hin; apply Hb; eapply in_prefix_batch; eauto).
  rewrite (count_ok_uniform BInsert _ _ Hu), (count_ok_uniform BDelete _ _ Hu), <- Hsum.
  simpl. destruct (batch_type_of b); simpl; lia.
Qed.

(** What [run_batches] dispatches and attempts, and what it counts. *)
Lemma run_batches_progress ordered bs : forall offset res s r s' d att,
  run_batches coll_state apply_op ordered offset bs res s = (r, s', d, att) ->
  map fst d = firstn (length d) bs /\
  map fst att = firstn (length att) (concat bs) /\
  ((forall p, In p att -> is_error p = false) -> length att = length (concat bs)) /\
  (Forall homogeneous bs ->
   nInserted r = nInserted res + count_ok BInsert att /\
   nRemoved r = nRemoved res + count_ok BDelete att) /\
  (ordered = true -> forall j b rp, nth_error d j = Some (b, rp) ->
   rp_writeErrors rp <> [] -> length d = S j) /\
  (ordered = true -> forall i p, nth_error att i = Some p -> is_error p = true ->
   length att = S i).
Proof.
  induction bs as [|b bs IH]; intros offset res s r s' d att H.
  - simpl in H; inversion H; subst; simpl.
    repeat split; try lia; intros; try discriminate.
    destruct j; discriminate. destruct i; discriminate.
  - simpl in H.
    destruct (server_batch coll_state apply_op ordered 0 b s) as [[rp s1] tr] eqn:Hs.
    destruct (server_batch_spec _ _ _ _ _ _ _ _ _ Hs) as (He & _ & Hp & Hl & Hn & Ho & _).
    pose proof (merge_counts res offset b _ _ _ _ _ Hs) as Mc.
    assert (Hle : length tr <= length b).
    { apply (f_equal (@length _)) in Hp. rewrite length_map, length_firstn in Hp. lia. }
    destruct ordered; destruct (rp_writeErrors rp) as [|x xs] eqn:Er;
      [| injection H as H1 H2 H3 H4; subst r s' d att | |].
    2:{ simpl. refine (conj _ (conj _ (conj _ (conj _ (conj _ _))))).
        - reflexivity.
        - rewrite Hp, firstn_app. replace (length tr - length b) with 0 by lia.
          simpl; rewrite app_nil_r; reflexivity.
        - intros Hne. exfalso.
          destruct x as [k c]. destruct (He k c) as (o & _ & H1 & _); [rewrite ?Er; left; reflexivity|].
          rewrite Nat.sub_0_r in H1. apply nth_error_In in H1. apply Hne in H1. discriminate.
        - intros Hf; inversion Hf; subst. apply Mc; auto.
        - intros _ [|j] b' rp' Hj _; [reflexivity|]. destruct j; discriminate.
        - intros _ i p Hi Herr. eapply Ho; eauto. }
    all: destruct (run_batches coll_state apply_op _ (offset + length b) bs
                     (merge_reply res offset b rp) s1) as [[[r1 s2] d1] att1] eqn:Hr;
         injection H as H1 H2 H3 H4; subst r s' d att;
         assert (Hlen : length tr = length b) by (apply Hl; auto);
         assert (Htr : map fst tr = b) by (rewrite Hp, Hlen; apply firstn_all);
         destruct (IH _ _ _ _ _ _ _ Hr) as (IHd & IHa & IHn & IHc & IHe & IHf);
         simpl; refine (conj _ (conj _ (conj _ (conj _ (conj _ _))))).
    all: try (rewrite IHd; reflexivity).
    all: try (rewrite map_app, Htr, IHa, length_app, firstn_app, Hlen;
              rewrite (firstn_all2 b) by lia;
              replace (length b + length att1 - length b) with (length att1) by lia;
              reflexivity).
    all: try (intros Hne; rewrite length_app, length_app, Hlen, IHn; [reflexivity|];
              intros p Hin; apply Hne, in_or_app; right; exact Hin).
    all: try (intros Hf; inversion Hf as [|? ? Hb Hbs]; subst;
              destruct (IHc Hbs) as [Ci Cr]; destruct (Mc Hb) as [Mi Mr];
              rewrite !count_ok_app; split; lia).
    all: try (intros Hord; discriminate).
    all: try (intros _ [|j] b' rp' Hj Hne;
              [ simpl in Hj; inversion Hj; subst; contradiction
              | simpl; f_equal; eapply IHe; eauto ]).
    all: intros _ i p Hi Herr;
         destruct (Nat.lt_ge_cases i (length tr)) as [Hlt|Hge];
         [ rewrite nth_error_app1 in Hi by exact Hlt;
           apply nth_error_In in Hi; rewrite (Hn eq_refl p Hi) in Herr; discriminate
         | rewrite nth_error_app2 in Hi by exact Hge;
           apply (IHf eq_refl) in Hi; [rewrite length_app; lia | exact Herr] ].
Qed.

(** What one batch reports of its successes: the [nModified] sum and the
    upserted ids. *)
Lemma server_batch_reports ordered b t' : forall k s rp s' tr,
  server_batch coll_state apply_op ordered k b s = (rp, s', tr) ->
  ((forall p, In p tr -> op_type (fst p) = t') -> rp_nModified rp = modified_ok t' tr) /\
  map snd (rp_upserted rp) = upserted_ok tr.
Proof.
  assert (Ht' : batch_type_eqb t' t' = true) by (apply batch_type_eqb_eq; reflexivity).
  induction b as [|o b IH]; intros k s rp s' tr H; simpl in H.
  - injection H as <- _ <-; split; reflexivity.
  - destruct (apply_op s o) as [out s1] eqn:Ha.
    destruct out as [n nm up|code].
    + destruct (server_batch coll_state apply_op ordered (S k) b s1) as [[rp1 s2] tr1] eqn:Hb.
      injection H as <- _ <-.
      destruct (IH _ _ _ _ _ Hb) as [I1 I2].
      split.
      * intros Hu. pose proof (Hu (o, OpOk n nm up) (or_introl eq_refl)) as Ho.
        simpl in Ho |- *. rewrite Ho, Ht'.
        rewrite I1; [reflexivity|]. intros p Hp; apply Hu; right; exact Hp.
      * destruct up as [i|]; simpl; rewrite I2; reflexivity.
    + destruct ordered.
      * injection H as <- _ <-; split; reflexivity.
      * destruct (server_batch coll_state apply_op false (S k) b s1) as [[rp1 s2] tr1] eqn:Hb.
        injection H as <- _ <-.
        destruct (IH _ _ _ _ _ Hb) as [I1 I2].
        split; simpl; [|exact I2].
        intros Hu; apply I1; intros p Hp; apply Hu; right; exact Hp.
Qed.

(** How merging one batch's reply accounts for its update successes. *)
Lemma merge_update_counts res offset b rp tr s s1 ordered :
  server_batch coll_state apply_op ordered 0 b s = (rp, s1, tr) -> homogeneous b ->
  nModified (merge_reply res offset b rp) = opt_add (nModified res) (modified_ok BUpdate tr) /\
  nUpserted (merge_reply res offset b rp) =
    nUpserted res + length (upserted_ok (of_type BUpdate tr)) /\
  map snd (upserted (merge_reply res offset b rp)) = map snd (upserted res) ++ upserted_ok tr /\
  ((forall o n nm id, In (o, OpOk n nm (Some id)) tr -> 1 <= n) ->
   nMatched (merge_reply res offset b rp) + nUpserted (merge_reply res offset b rp) =
   nMatched res + nUpserted res + count_ok BUpdate tr).
Proof.
  intros Hs Hb.
  destruct (server_batch_spec _ _ _ _ _ _ _ _ _ Hs) as (_ & _ & Hp & _ & _ & _ & Hsum).
  assert (Hu : forall p, In p tr -> op_type (fst p) = batch_type_of b)
    by (intros p Hin; apply Hb; eapply in_prefix_batch; eauto).
  destruct (server_batch_reports ordered b (batch_type_of b) _ _ _ _ _ Hs) as [R1 R2].
  specialize (R1 Hu).
  rewrite (modified_ok_uniform BUpdate _ _ Hu), (of_type_uniform BUpdate _ _ Hu),
          (count_ok_uniform BUpdate _ _ Hu).
  assert (Hlen : length (rp_upserted rp) = length (upserted_ok tr))
    by (rewrite <- R2, length_map; reflexivity).
  unfold merge_reply; cbn [nModified nUpserted nMatched upserted].
  rewrite map_app, map_snd_shift, R2.
  destruct (batch_type_of b); simpl.
  - refine (conj _ (conj _ (conj eq_refl _))); [reflexivity | lia | intros; lia].
  - refine (conj _ (conj _ (conj eq_refl _))); [rewrite R1; reflexivity | lia |].
    intros Hup. pose proof (upserted_ok_le_sum tr Hup). lia.
  - refine (conj _ (conj _ (conj eq_refl _))); [reflexivity | lia | intros; lia].
Qed.

(** What [run_batches] reports of the update successes. *)
Lemma run_batches_updates ordered bs : forall offset res s r s' d att,
  run_batches coll_state apply_op ordered offset bs res s = (r, s', d, att) ->
  Forall homogeneous bs ->
  nModified r = opt_add (nModified res) (modified_ok BUpdate att) /\
  nUpserted r = nUpserted res + length (upserted_ok (of_type BUpdate att)) /\
  map snd (upserted r) = map snd (upserted res) ++ upserted_ok att /\
  ((forall o n nm id, In (o, OpOk n nm (Some id)) att -> 1 <= n) ->
   nMatched r + nUpserted r = nMatched res + nUpserted res + count_ok BUpdate att).
Proof.
  induction bs as [|b bs IH]; intros offset res s r s' d att H Hb.
  - simpl in H; injection H as <- _ _ <-; simpl.
    rewrite opt_add_0_r, app_nil_r.
    refine (conj eq_refl (conj _ (conj eq_refl _))); [lia | intros; lia].
  - simpl in H.
    destruct (server_batch coll_state apply_op ordered 0 b s) as [[rp s1] tr] eqn:Hs.
    inversion Hb as [|? ? Hb1 Hbs]; subst.
    destruct (merge_update_counts res offset b _ _ _ _ _ Hs Hb1) as (M1 & M2 & M3 & M4).
    destruct ordered; destruct (rp_writeErrors rp) as [|x xs];
      [ | injection H as <- _ _ <-; exact (conj M1 (conj M2 (conj M3 M4))) | | ].
    all: destruct (run_batches coll_state apply_op _ (offset + length b) bs
                     (merge_reply res offset b rp) s1) as [[[r1 s2] d1] att1] eqn:Hr;
         injection H as <- _ _ <-;
         destruct (IH _ _ _ _ _ _ _ Hr Hbs) as (I1 & I2 & I3 & I4);
         refine (conj _ (conj _ (conj _ _))).
    all: try (rewrite I1, M1, modified_ok_app, opt_add_assoc; reflexivity).
    all: try (rewrite I2, M2; unfold of_type; rewrite filter_app, upserted_ok_app, length_app; lia).
    all: try (rewrite I3, M3, upserted_ok_app, app_assoc; reflexivity).
    all: intros Hup; rewrite count_ok_app;
         specialize (I4 (fun o n nm id Hi => Hup o n nm id (in_or_app _ _ _ (or_intror Hi))));
         specialize (M4 (fun o n nm id Hi => Hup o n nm id (in_or_app _ _ _ (or_introl Hi))));
         lia.
Qed.

End RunBatchesOrdered.

(** C7: However the operations [ops] are cut into consecutive batches [bs],
    each write error and each upsert of the aggregated result carries the
    0-based position in [ops] of the operation it reports on: the
    operation at that position is the one the server attempted there, with
    that error (and the error's [failedOperation] is that operation) or
    with that upserted id. *)
Theorem bulk_indices_are_global (coll_state : Type)
        (apply_op : coll_state -> write_op -> outcome * coll_state)
        (ordered : bool) (ops : list write_op) (bs : list (list write_op)) (s : coll_state) :
  concat bs = ops ->
  let '(r, _, _, att) := run_batches coll_state apply_op ordered 0 bs empty_result s in
  (forall e, In e (writeErrors r) ->
     exists o, nth_error ops (we_index e) = Some o /\ we_op e = Some o /\
               nth_error att (we_index e) = Some (o, OpErr (we_code e))) /\
  (forall i id, In (i, id) (upserted r) ->
     exists o n nm, nth_error ops i = Some o /\
                    nth_error att i = Some (o, OpOk n nm (Some id))).
Proof.
  intros Hc.
  destruct (run_batches coll_state apply_op ordered 0 bs empty_result s)
    as [[[r s'] d] att] eqn:Hr.
  destruct (run_batches_indices _ _ _ _ _ _ _ _ _ _ _ Hr) as [He Hu]; subst ops.
  split.
  - intros e Hin. destruct (He e Hin) as [[]|(o & _ & H1 & H2 & H3)].
    rewrite Nat.sub_0_r in H1, H2. exists o; auto.
  - intros i id Hin. destruct (Hu i id Hin) as [[]|(o & n & nm & _ & H1 & H2)].
    rewrite Nat.sub_0_r in H1, H2. exists o, n, nm; auto.
Qed.

(** C8: In ordered mode, with the batches of the splitter: the dispatched
    batches are the first ones in order, and none follows a batch that
    reported an error; the attempted operations are a prefix of [ops],
    nothing is attempted after a failed operation, and everything is
    attempted when nothing fails.  Every success among the attempted
    operations is in the aggregate: [nInserted] and [nRemoved] sum the
    counts of the successful inserts and deletes, [nModified] the
    [nModified] of the successful updates, [nUpserted] counts the upserting
    updates, [upserted] lists every upserted id in order, and, when each
    upsert is counted in its [n] as the server does, [nMatched + nUpserted]
    sums the counts of the successful updates. *)
Theorem ordered_stops_at_first_error (coll_state : Type)
        (apply_op : coll_state -> write_op -> outcome * coll_state)
        (max_count max_size : nat) (ops : list write_op) (s : coll_state) :
  let bs := split_batches max_count max_size ops in
  let '(r, _, d, att) := run_batches coll_state apply_op true 0 bs empty_result s in
  map fst d = firstn (length d) bs /\
  (forall j b rp, nth_error d j = Some (b, rp) -> rp_writeErrors rp <> [] -> length d = S j) /\
  map fst att = firstn (length att) ops /\
  (forall i p, nth_error att i = Some p -> is_error p = true -> length att = S i) /\
  ((forall p, In p att -> is_error p = false) -> map fst att = ops) /\
  nInserted r = count_ok BInsert att /\
  nRemoved r = count_ok BDelete att /\
  nModified r = modified_ok BUpdate att /\
  nUpserted r = length (upserted_ok (of_type BUpdate att)) /\
  map snd (upserted r) = upserted_ok att /\
  ((forall o n nm id, In (o, OpOk n nm (Some id)) att -> 1 <= n) ->
   nMatched r + nUpserted r = count_ok BUpdate att).
Proof.
  intros bs.
  destruct (run_batches coll_state apply_op true 0 bs empty_result s)
    as [[[r s'] d] att] eqn:Hr.
  destruct (run_batches_progress _ _ _ _ _ _ _ _ _ _ _ Hr)
    as (Hd & Ha & Hn & Hc & He & Hf).
  assert (Hcat : concat bs = ops) by apply split_batches_concat.
  rewrite Hcat in Ha, Hn.
  assert (Hh : Forall homogeneous bs) by apply split_batches_homogeneous.
  destruct (Hc Hh) as [Ci Cr].
  destruct (run_batches_updates _ _ _ _ _ _ _ _ _ _ _ Hr Hh) as (U1 & U2 & U3 & U4).
  cbn [nModified nUpserted nMatched upserted empty_result map app] in U1, U2, U3, U4.
  rewrite opt_add_0_l in U1.
  refine (conj Hd (conj (He eq_refl) (conj Ha (conj (Hf eq_refl)
            (conj _ (conj Ci (conj Cr (conj U1 (conj U2 (conj U3 _)))))))))).
  - intros Hne. rewrite Ha, (Hn Hne). apply firstn_all.
  - intros Hup. rewrite (U4 Hup). reflexivity.
Qed.

(** C9: [execute] fails with [InvalidOperation], changing neither the
    executor nor the collection state and attempting no operation, when the
    operation list is empty or the executor has already run; once it has
    been called with operations, every later call on it fails that way. *)
Theorem execute_single_use (coll_state : Type)
        (apply_op : coll_state -> write_op -> outcome * coll_state)
        (ex : bulk_executor) (ops : list write_op) (ordered : bool) (s : coll_state) :
  ((ops = [] \/ be_executed ex = true) ->
   execute coll_state apply_op ex ops ordered s = mkOutcome (inr InvalidOperation) ex s []) /\
  (ops <> [] ->
   forall ops2 ordered2 s2,
   let ex' := eo_executor (execute coll_state apply_op ex ops ordered s) in
   execute coll_state apply_op ex' ops2 ordered2 s2 = mkOutcome (inr InvalidOperation) ex' s2 []).
Proof.
  split.
  - intros [H|H]; [subst ops; reflexivity|].
    unfold execute. destruct ops; [reflexivity|]. rewrite H. reflexivity.
  - intros Hne ops2 ordered2 s2 ex'.
    assert (Hx : be_executed ex' = true).
    { unfold ex', execute. destruct ops as [|o ops]; [contradiction|].
      destruct (be_executed ex) eqn:E; [exact E|].
      destruct (run_batches coll_state apply_op ordered 0 _ empty_result s)
        as [[[r s'] d] att].
      destruct (writeErrors r); reflexivity. }
    unfold execute at 1. destruct ops2; [reflexivity|]. rewrite Hx. reflexivity.
Qed.

(* ------------------------------------------------------------------ *)
(** ** The theorems at concrete inputs *)

Lemma put_discards_data_witness :
  opt_id test_options = None /\
  find_file (VOid (w_next_oid empty_world)) (w_files empty_world) = None /\
  fst (put_then_read [Byte.x41] test_options empty_world) = Ok [] /\
  fst (put [Byte.x41] (mkOptions (Some (VOid 0)) None None []) three_versions) = Err FileExists.
Proof.
  split; [reflexivity|]. split; [reflexivity|]. split.
  - apply (proj1 (put_discards_data [Byte.x41])); reflexivity.
  - eapply (proj2 (put_discards_data [Byte.x41])); reflexivity.
Defined.

Lemma delete_idempotent_witness :
  NoDup (map f_id (w_files three_versions)) /\
  find_file (VOid 1) (w_files (snd (delete (VOid 1) three_versions))) = None.
Proof.
  assert (Hnd : NoDup (map f_id (w_files three_versions))).
  { vm_compute. repeat constructor; simpl; intuition discriminate. }
  split; [exact Hnd|].
  destruct (delete_idempotent (VOid 1) three_versions Hnd) as (Hd & Hf & _).
  rewrite Hd. exact Hf.
Defined.

Lemma get_missing_fails_eagerly_witness :
  find_file (VOid 7) (w_files three_versions) = None /\
  get (VOid 7) three_versions = (Err NoFile, three_versions).
Proof.
  split; [vm_compute; reflexivity|].
  apply get_missing_fails_eagerly; vm_compute; reflexivity.
Defined.

Lemma GridFS_init_requires_acknowledged_witness :
  acknowledged (db_write_concern unacknowledged_db) = false /\
  GridFS_init unacknowledged_db "fs" = (Err ConfigurationError, []) /\
  exists g log, GridFS_init majority_db "fs" = (Ok g, log) /\
                acknowledged (coll_write_concern (gfs_chunks g)) = true.
Proof.
  split; [reflexivity|]. split.
  - apply (proj1 (GridFS_init_requires_acknowledged unacknowledged_db "fs")); reflexivity.
  - eexists; eexists; split; [reflexivity|].
    exact (proj2 (proj2 (proj2 (proj2 (GridFS_init_requires_acknowledged majority_db "fs")
                                      _ _ eq_refl)))).
Defined.

Lemma bulk_indices_are_global_witness :
  concat (split_batches 2 10 demo_ops) = demo_ops /\
  let '(r, _, _, att) := run_batches nat dup13_apply false 0 (split_batches 2 10 demo_ops)
                                     empty_result 0 in
  (forall e, In e (writeErrors r) ->
     exists o, nth_error demo_ops (we_index e) = Some o /\ we_op e = Some o /\
               nth_error att (we_index e) = Some (o, OpErr (we_code e))) /\
  (forall i id, In (i, id) (upserted r) ->
     exists o n nm, nth_error demo_ops i = Some o /\
                    nth_error att i = Some (o, OpOk n nm (Some id))).
Proof.
  assert (Hc : concat (split_batches 2 10 demo_ops) = demo_ops) by (vm_compute; reflexivity).
  split; [exact Hc|].
  exact (bulk_indices_are_global nat dup13_apply false demo_ops _ 0 Hc).
Defined.

Lemma execute_single_use_witness :
  execute nat dup13_apply demo_executor [] true 0 =
    mkOutcome (inr InvalidOperation) demo_executor 0 [] /\
  (let ex' := eo_executor (execute nat dup13_apply demo_executor demo_ops true 0) in
   execute nat dup13_apply ex' demo_ops false 5 = mkOutcome (inr InvalidOperation) ex' 5 []).
Proof.
  split.
  - apply (proj1 (execute_single_use nat dup13_apply demo_executor [] true 0)).
    left; reflexivity.
  - apply (proj2 (execute_single_use nat dup13_apply demo_executor demo_ops true 0)).
    intro H; vm_compute in H; discriminate H.
Defined.

(* ================================================================== *)
(** * Further properties of gridfs.py and tests/utils.py *)

(** ** Helpers *)

(** The whole run of [put]: a fresh or caller-supplied [_id], no chunk,
    one metadata document inserted at the current time. *)
Lemma put_run data o w :
  put data o w =
    let i := match opt_id o with Some j => j | None => VOid (w_next_oid w) end in
    let n := match opt_id o with Some _ => w_next_oid w | None => S (w_next_oid w) end in
    let d := mkFile i (opt_filename o) 0
                    (match opt_chunkSize o with Some c => c | None => DEFAULT_CHUNK_SIZE end)
                    (w_clock w) (opt_meta o) in
    match find_file i (w_files w) with
    | Some _ => (Err FileExists, mkWorld (w_files w) (w_chunks w) (S (w_clock w)) n)
    | None => (Ok i, mkWorld (w_files w ++ [d]) (w_chunks w) (S (w_clock w)) n)
    end.
Proof.
  destruct o as [[j|] fn cs meta]; destruct w as [fs chs clk oid];
    unfold put, gridin_new, not_awaited, gridin_close, new_object_id, now, files_insert_one,
           bind, ret, raise, get_world, put_world; simpl;
    destruct (find_file _ fs); reflexivity.
Qed.

Lemma remove_first_file_last i l d :
  find_file i l = None -> f_id d = i -> remove_first_file i (l ++ [d]) = l.
Proof.
  intros Hn Hd; induction l as [|e l IH]; simpl.
  - subst; rewrite val_eqb_refl; reflexivity.
  - unfold find_file in Hn; simpl in Hn.
    destruct (val_eqb (f_id e) i); [discriminate|].
    rewrite IH; auto.
Qed.

Lemma names_not_none_In n l : In n (names_not_none l) <-> In (Some n) l.
Proof.
  induction l as [|[m|] l IH]; simpl.
  - tauto.
  - rewrite IH; split; intros [H|H]; auto; left; congruence.
  - rewrite IH; split; auto; intros [H|H]; [discriminate|auto].
Qed.

Lemma names_not_none_NoDup l : NoDup l -> NoDup (names_not_none l).
Proof.
  induction 1 as [|[m|] l Hnot Hnd IH]; simpl; try constructor; auto.
  rewrite names_not_none_In; exact Hnot.
Qed.

Lemma unpack_be_u16_none b : unpack_be_u16 b = None <-> length b <> 2.
Proof.
  destruct b as [|x [|y [|z b]]]; simpl; split; intros H;
    try discriminate; try reflexivity; lia.
Qed.

Lemma slice_7_9 (b : list Byte.byte) x y :
  nth_error b 7 = Some x -> nth_error b 8 = Some y -> firstn 2 (skipn 7 b) = [x; y].
Proof.
  intros H7 H8.
  do 7 (destruct b as [|? b]; [discriminate|]).
  destruct b as [|x' [|y' b]]; simpl in *; try discriminate.
  injection H7 as ->; injection H8 as ->; reflexivity.
Qed.

(** ** put *)

(** X1: [put(data, **o)] never writes a chunk.  When it succeeds with an
    id [i], that id was not stored yet (it is the caller's [_id] or a fresh
    ObjectId) and exactly one metadata document is appended: id [i], the
    given filename, chunk size (255 KiB by default) and metadata, length 0
    and the current time as upload date.  It fails only with
    [FileExists], and then stores no document. *)
Theorem put_stores_one_document data o w :
  let (r, w') := put data o w in
  w_chunks w' = w_chunks w /\
  match r with
  | Ok i =>
      i = match opt_id o with Some j => j | None => VOid (w_next_oid w) end /\
      find_file i (w_files w) = None /\
      w_files w' = w_files w ++
        [mkFile i (opt_filename o) 0
                (match opt_chunkSize o with Some c => c | None => DEFAULT_CHUNK_SIZE end)
                (w_clock w) (opt_meta o)]
  | Err e => e = FileExists /\ w_files w' = w_files w
  end.
Proof.
  rewrite put_run; cbv zeta.
  destruct (find_file _ (w_files w)) eqn:E; simpl; auto.
Qed.

(** X2: deleting the id returned by a successful [put] undoes it: the
    files are those before the [put], and the chunks are those before the
    [put] except any that already carried that id. *)
Theorem put_then_delete data o w i w1 :
  put data o w = (Ok i, w1) ->
  delete i w1 = (Ok tt, mkWorld (w_files w) (chunks_without i (w_chunks w))
                                (w_clock w1) (w_next_oid w1)).
Proof.
  rewrite put_run; cbv zeta.
  destruct (find_file _ (w_files w)) eqn:E; intros H; [discriminate|].
  injection H as <- <-.
  unfold delete, files_delete_one, chunks_delete_many, bind, get_world, put_world; simpl.
  rewrite remove_first_file_last; auto.
Qed.

(** X3: [get] of the id returned by a successful [put] succeeds, without
    changing the bucket, with the metadata document [put] stored. *)
Theorem put_then_get data o w i w1 :
  put data o w = (Ok i, w1) ->
  get i w1 =
    (Ok (mkGridOut i (Some (mkFile i (opt_filename o) 0
           (match opt_chunkSize o with Some c => c | None => DEFAULT_CHUNK_SIZE end)
           (w_clock w) (opt_meta o)))), w1).
Proof.
  rewrite put_run; cbv zeta.
  destruct (find_file _ (w_files w)) eqn:E; intros H; [discriminate|].
  injection H as <- <-.
  unfold get, gridout_ensure_file, bind, get_world, ret, raise; simpl.
  rewrite find_file_app, E; unfold find_file; simpl; rewrite val_eqb_refl; reflexivity.
Qed.

(** ** list *)

(** X4: [list()] never fails and changes nothing; it returns every
    filename of a stored file exactly once, and nothing else (files without
    a filename are left out). *)
Theorem GridFS_list_distinct_names w :
  let (r, w') := GridFS_list w in
  w' = w /\
  match r with
  | Ok names => NoDup names /\
                forall n, In n names <-> exists d, In d (w_files w) /\ f_filename d = Some n
  | Err _ => False
  end.
Proof.
  unfold GridFS_list, files_distinct_filename, bind, get_world, ret; simpl.
  split; [reflexivity|]. split.
  - apply names_not_none_NoDup, NoDup_nodup.
  - intros n; rewrite names_not_none_In, nodup_In, in_map_iff.
    split; intros [d [H1 H2]]; eauto.
Qed.

(** X5: after a successful [put], [list()] returns the names it returned
    before, plus the filename given to [put] if there is one. *)
Theorem put_then_list data o w i w1 :
  put data o w = (Ok i, w1) ->
  exists names names1,
    GridFS_list w = (Ok names, w) /\ GridFS_list w1 = (Ok names1, w1) /\
    forall n, In n names1 <-> In n names \/ opt_filename o = Some n.
Proof.
  intros H.
  exists (names_not_none (nodup option_string_eq_dec (map f_filename (w_files w)))),
         (names_not_none (nodup option_string_eq_dec (map f_filename (w_files w1)))).
  split; [reflexivity|]. split; [reflexivity|].
  revert H; rewrite put_run; cbv zeta.
  destruct (find_file _ (w_files w)) eqn:E; intros H; [discriminate|].
  injection H as <- <-; simpl.
  intros n; rewrite !names_not_none_In, !nodup_In, map_app, in_app_iff; simpl.
  split; intros [Hn|Hn]; auto.
  all: try (destruct Hn as [Hn|[]]; auto).
  all: right; left; congruence.
Qed.

(** ** oid_generated_on_client *)

(** X8: [oid_generated_on_client] raises [struct.error] exactly when the
    binary form of the ObjectId is shorter than 9 bytes. *)
Theorem oid_generated_on_client_raises_iff_short pid b :
  oid_generated_on_client pid b = None <-> length b < 9.
Proof.
  unfold oid_generated_on_client.
  assert (Hl : length (firstn 2 (skipn 7 b)) = Nat.min 2 (length b - 7))
    by (rewrite length_firstn, length_skipn; reflexivity).
  destruct (unpack_be_u16 (firstn 2 (skipn 7 b))) eqn:E.
  - assert (Hn : length (firstn 2 (skipn 7 b)) = 2).
    { destruct (Nat.eq_dec (length (firstn 2 (skipn 7 b))) 2) as [e|ne]; auto.
      apply unpack_be_u16_none in ne; congruence. }
    split; intros H; [discriminate|lia].
  - apply unpack_be_u16_none in E. split; intros; [lia|reflexivity].
Qed.

(** X9: an ObjectId whose bytes 7 and 8 are both [0xFF] is never reported
    as generated by the current process, whatever its id: [pid % 0xFFFF]
    is at most [0xFFFE]. *)
Theorem oid_generated_on_client_never_ffff pid b :
  nth_error b 7 = Some Byte.xff -> nth_error b 8 = Some Byte.xff ->
  oid_generated_on_client pid b = Some false.
Proof.
  intros H7 H8; unfold oid_generated_on_client.
  rewrite (slice_7_9 b _ _ H7 H8); simpl.
  f_equal; apply Z.eqb_neq.
  pose proof (Z.mod_pos_bound pid 65535 ltac:(lia)); lia.
Qed.

(** X10: the check cannot tell apart two process ids that differ by
    [0xFFFF]: it gives the same answer for both. *)
Theorem oid_generated_on_client_pid_period pid b :
  oid_generated_on_client (pid + 65535) b = oid_generated_on_client pid b.
Proof.
  unfold oid_generated_on_client.
  replace (pid + 65535)%Z with (pid + 1 * 65535)%Z by lia.
  rewrite Z_mod_plus_full; reflexivity.
Qed.

(** ** The further properties at concrete inputs *)

Lemma put_then_delete_witness :
  put [Byte.x41] test_options three_versions =
    (Ok (VOid 3), snd (put [Byte.x41] test_options three_versions)) /\
  delete (VOid 3) (snd (put [Byte.x41] test_options three_versions)) =
    (Ok tt, mkWorld (w_files three_versions) (chunks_without (VOid 3) (w_chunks three_versions))
                    (w_clock (snd (put [Byte.x41] test_options three_versions)))
                    (w_next_oid (snd (put [Byte.x41] test_options three_versions)))).
Proof.
  assert (H : put [Byte.x41] test_options three_versions =
                (Ok (VOid 3), snd (put [Byte.x41] test_options three_versions)))
    by (vm_compute; reflexivity).
  exact (conj H (put_then_delete _ _ _ _ _ H)).
Defined.

Lemma put_then_get_witness :
  put [Byte.x41] test_options three_versions =
    (Ok (VOid 3), snd (put [Byte.x41] test_options three_versions)) /\
  get (VOid 3) (snd (put [Byte.x41] test_options three_versions)) =
    (Ok (mkGridOut (VOid 3) (Some (mkFile (VOid 3) (opt_filename test_options) 0
           (match opt_chunkSize test_options with Some c => c | None => DEFAULT_CHUNK_SIZE end)
           (w_clock three_versions) (opt_meta test_options)))),
     snd (put [Byte.x41] test_options three_versions)).
Proof.
  assert (H : put [Byte.x41] test_options three_versions =
                (Ok (VOid 3), snd (put [Byte.x41] test_options three_versions)))
    by (vm_compute; reflexivity).
  exact (conj H (put_then_get _ _ _ _ _ H)).
Defined.

Lemma put_then_list_witness :
  put [Byte.x41] (mkOptions None (Some "other"%string) (Some 4) []) three_versions =
    (Ok (VOid 3), snd (put [Byte.x41] (mkOptions None (Some "other"%string) (Some 4) []) three_versions)) /\
  exists names names1,
    GridFS_list three_versions = (Ok names, three_versions) /\
    GridFS_list (snd (put [Byte.x41] (mkOptions None (Some "other"%string) (Some 4) []) three_versions))
      = (Ok names1, snd (put [Byte.x41] (mkOptions None (Some "other"%string) (Some 4) []) three_versions)) /\
    forall n, In n names1 <-> In n names \/ Some "other"%string = Some n.
Proof.
  assert (H : put [Byte.x41] (mkOptions None (Some "other"%string) (Some 4) []) three_versions =
    (Ok (VOid 3), snd (put [Byte.x41] (mkOptions None (Some "other"%string) (Some 4) []) three_versions)))
    by (vm_compute; reflexivity).
  exact (conj H (put_then_list _ _ _ _ _ H)).
Defined.

Lemma oid_generated_on_client_never_ffff_witness :
  nth_error [Byte.x5f; Byte.x1a; Byte.x2b; Byte.x3c; Byte.x4d; Byte.x5e; Byte.x6f;
             Byte.xff; Byte.xff; Byte.x00; Byte.x01; Byte.x02] 7 = Some Byte.xff /\
  nth_error [Byte.x5f; Byte.x1a; Byte.x2b; Byte.x3c; Byte.x4d; Byte.x5e; Byte.x6f;
             Byte.xff; Byte.xff; Byte.x00; Byte.x01; Byte.x02] 8 = Some Byte.xff /\
  oid_generated_on_client 65535
    [Byte.x5f; Byte.x1a; Byte.x2b; Byte.x3c; Byte.x4d; Byte.x5e; Byte.x6f;
     Byte.xff; Byte.xff; Byte.x00; Byte.x01; Byte.x02] = Some false.
Proof.
  split; [reflexivity|]. split; [reflexivity|].
  apply oid_generated_on_client_never_ffff; reflexivity.
Defined.

Lemma ordered_stops_at_first_error_witness :
  let '(r, _, _, att) := run_batches nat upsert_apply true 0 (split_batches 3 10 mixed_ops)
                                     empty_result 0 in
  (forall o n nm id, In (o, OpOk n nm (Some id)) att -> 1 <= n) /\
  nMatched r + nUpserted r = count_ok BUpdate att.
Proof.
  pose proof (ordered_stops_at_first_error nat upsert_apply 3 10 mixed_ops 0) as H.
  cbv zeta in H. revert H.
  destruct (run_batches nat upsert_apply true 0 (split_batches 3 10 mixed_ops) empty_result 0)
    as [[[r s'] d] att] eqn:E.
  intros (_ & _ & _ & _ & _ & _ & _ & _ & _ & _ & Hm).
  assert (Hp : forall o n nm id, In (o, OpOk n nm (Some id)) att -> 1 <= n).
  { vm_compute in E. injection E as <- <- <- <-.
    intros o n nm id Hin; simpl in Hin.
    repeat (destruct Hin as [Hin|Hin]; [inversion Hin; lia|]); contradiction. }
  exact (conj Hp (Hm Hp)).
Defined.
